(** * hpx/lcos/condition.hpp: the condition LCO

    A shallow embedding of [hpx::lcos::detail::condition] and of the public
    wrapper [hpx::lcos::condition], with the properties of their wait and
    notify operations.

    The member functions are written in a small state-and-exception monad
    over a [world]: the [queue_] data member of the wrapped object together
    with the history of the calls the object has made on its queue and on
    the scheduler.  A second, small-step presentation of the same statements
    (one program point per source line) is used for the interleavings of
    several tasks. *)

From stdpp Require Import base option list list_numbers numbers strings functions.

(** ** Types the header uses but does not declare *)

(** Modelled from the spec: [threads::thread_id_type] is not declared in
    condition.hpp.  Section 3: a WaiterToken is an opaque identifier of a
    task, created by the scheduler; the header initializes one with [0]
    (lines 111 and 118), so it is an integer here. *)
Definition thread_id_type : Type := Z.

(** Modelled from the spec: the enumeration [threads::thread_state] is not
    declared in condition.hpp.  The header names [pending] (lines 113 and
    120) and [suspended] (line 106); section 6 speaks of runnable and
    suspended tasks and of the running caller, which is [active] here. *)
Inductive thread_state : Type :=
| active
| pending
| suspended.

(** Modelled from the spec: [hpx::error] is not declared in condition.hpp.
    Section 7: the code carried by a fault. *)
Definition error : Type := Z.

(** Modelled from the spec: [threads::thread_self] is not declared in
    condition.hpp.  Section 6: [currentTaskToken()] identifies the calling
    task; the header reads it with [self.get_thread_id()] (line 105). *)
Record thread_self : Type := ThreadSelf { get_thread_id : thread_id_type }.

(** [applier::applier]: passed to the LCO actions and never used by them. *)
Inductive applier : Type := the_applier.

#[global] Instance thread_state_eq_dec : EqDecision thread_state.
Proof. solve_decision. Defined.

#[global] Instance thread_self_eq_dec : EqDecision thread_self.
Proof. solve_decision. Defined.

(** ** The queue

    [boost::lockfree::fifo] is not defined in condition.hpp.  Each call on
    it is one atomic step (section 4.1, linearizability), so the content of
    the queue is a list, oldest entry first. *)

Module fifo.

Definition t (T : Type) : Type := list T.

Definition empty {T : Type} : t T := [].

(** Modelled from the spec: section 4.1, [enqueue(token)] appends the token
    as the newest entry. *)
Definition enqueue {T : Type} (x : T) (q : t T) : t T := q ++ [x].

(** Modelled from the spec: section 4.1, [dequeue()] atomically removes and
    returns the oldest entry, or signals empty if there is none.  The
    header calls it as [bool dequeue(T* out)] (lines 112 and 119): on
    success the entry is written through [out], on failure [out] keeps its
    value. *)
Definition dequeue {T : Type} (out : T) (q : t T) : bool * T * t T :=
  match q with
  | [] => (false, out, [])
  | x :: q' => (true, x, q')
  end.

End fifo.

(** ** Calls on the collaborators, and the world *)

Inductive event : Type :=
| enqueue_call (id : thread_id_type)
    (** [queue_.enqueue(id)] *)
| dequeue_call (r : option thread_id_type)
    (** [queue_.dequeue(&id)], with the entry it returned, if any *)
| set_state_call (self : thread_self) (id : thread_id_type) (st : thread_state)
    (** [threads::set_state(self, id, st)] *)
| yield_call (self : thread_self) (st : thread_state).
    (** [self.yield(st)] *)

(** [queue_] is the only data member of [detail::condition] (line 138);
    [trace] is the history of calls, oldest first. *)
Record world : Type := World {
  queue_ : fifo.t thread_id_type;
  trace : list event
}.

Definition record (e : event) (w : world) : world :=
  {| queue_ := queue_ w; trace := trace w ++ [e] |}.

Definition do_enqueue (id : thread_id_type) (w : world) : world :=
  record (enqueue_call id) {| queue_ := fifo.enqueue id (queue_ w); trace := trace w |}.

Definition do_dequeue (out : thread_id_type) (w : world)
  : bool * thread_id_type * world :=
  let '(ok, id, q) := fifo.dequeue out (queue_ w) in
  (ok, id,
   record (dequeue_call (if ok then Some id else None))
          {| queue_ := q; trace := trace w |}).

Definition do_set_state (self : thread_self) (id : thread_id_type)
    (st : thread_state) (w : world) : world :=
  record (set_state_call self id st) w.

Definition do_yield (self : thread_self) (st : thread_state) (w : world) : world :=
  record (yield_call self st) w.

(** The tokens handed to the scheduler with [set_state(_, id, pending)], and
    the tokens given to [enqueue], in the order of the calls. *)
Definition notified (tr : list event) : list thread_id_type :=
  omap (λ e, match e with
             | set_state_call _ id pending => Some id
             | _ => None
             end) tr.

Definition enqueued (tr : list event) : list thread_id_type :=
  omap (λ e, match e with enqueue_call id => Some id | _ => None end) tr.

Definition yields (tr : list event) : list (thread_self * thread_state) :=
  omap (λ e, match e with yield_call s st => Some (s, st) | _ => None end) tr.

(** ** The monad of the member functions *)

Inductive outcome (A : Type) : Type :=
| Returned (a : A)
| Thrown (code : error) (msg : string)
| OutOfFuel.
Arguments Returned {A} a.
Arguments Thrown {A} code msg.
Arguments OutOfFuel {A}.

Definition M (A : Type) : Type := world → outcome A * world.

#[global] Instance M_ret : MRet M := λ A a w, (Returned a, w).

#[global] Instance M_bind : MBind M := λ A B k m w,
  match m w with
  | (Returned a, w') => k a w'
  | (Thrown code msg, w') => (Thrown code msg, w')
  | (OutOfFuel, w') => (OutOfFuel, w')
  end.

Definition lift_world (f : world → world) : M unit := λ w, (Returned (), f w).

Definition queue_enqueue (id : thread_id_type) : M unit :=
  lift_world (do_enqueue id).

Definition queue_dequeue (out : thread_id_type) : M (bool * thread_id_type) :=
  λ w, let '(ok, id, w') := do_dequeue out w in (Returned (ok, id), w').

(** Modelled from the spec: [threads::set_state] is not defined in
    condition.hpp.  Section 5: the condition only requests transitions, the
    per-task state is owned by the scheduler.  The call is a request that is
    recorded in the trace; what the scheduler does with it is the subject of
    [system.scheduler] below. *)
Definition set_state (self : thread_self) (id : thread_id_type)
    (st : thread_state) : M unit :=
  lift_world (do_set_state self id st).

(** Modelled from the spec: [thread_self::yield] is not defined in
    condition.hpp.  Section 6: a cooperative yield that returns control to
    the caller once the task has been set runnable.  In the monad the call
    is recorded and the function continues with what follows the
    resumption. *)
Definition yield (self : thread_self) (st : thread_state) : M unit :=
  lift_world (do_yield self st).

(** Modelled from the spec: the macro [HPX_THROW_EXCEPTION] is not defined
    in condition.hpp.  Section 7: an unconditional, synchronous fault
    carrying a code and a message, raised to the caller. *)
Definition HPX_THROW_EXCEPTION {A : Type} (code : error) (msg : string) : M A :=
  λ w, (Thrown code msg, w).

Definition out_of_fuel {A : Type} : M A := λ w, (OutOfFuel, w).

(** What a call does: it ends with an outcome and a world, or its behaviour
    is undefined, as when control flows off the end of a function that is
    declared to return a value. *)
Inductive behaviour (A : Type) : Type :=
| defined (r : outcome A * world)
| undefined.
Arguments defined {A} r.
Arguments undefined {A}.

(** Running a member function: its outcome and the world it leaves. *)
Definition result_of {A : Type} (r : outcome A * world) : outcome A := r.1.
Definition world_of {A : Type} (r : outcome A * world) : world := r.2.

(** Statements one after the other. *)
Fixpoint sequence_ (ms : list (M unit)) : M unit :=
  match ms with
  | [] => mret ()
  | m :: ms' => m ;; sequence_ ms'
  end.

(** ** hpx::lcos::detail::condition (lines 92-139) *)

Module detail.
Module condition.

Definition new : world := {| queue_ := fifo.empty; trace := [] |}.

(** Lines 103-107. *)
Definition wait (self : thread_self) : M unit :=
  queue_enqueue (get_thread_id self) ;;
  yield self suspended.

(** Lines 109-114. *)
Definition notify_one (self : thread_self) : M unit :=
  let id : thread_id_type := 0%Z in
  '(ok, id) ← queue_dequeue id;
  if ok : bool then set_state self id pending else mret ().

(** The loop of lines 119-120, with [fuel] bounding the number of times
    the condition [queue_.dequeue(&id)] is evaluated. *)
Fixpoint notify_all_loop (fuel : nat) (self : thread_self)
    (id : thread_id_type) : M unit :=
  match fuel with
  | O => out_of_fuel
  | S fuel' =>
      '(ok, id) ← queue_dequeue id;
      if ok : bool
      then set_state self id pending ;; notify_all_loop fuel' self id
      else mret ()
  end.

(** Lines 116-121. *)
Definition notify_all (fuel : nat) (self : thread_self) : M unit :=
  let id : thread_id_type := 0%Z in
  notify_all_loop fuel self id.

(** Lines 124-128.  The function is declared to return a
    [threads::thread_state]; its body is the call [notify_one(self)] and no
    return statement.  When that call returns, control reaches the closing
    brace of a value-returning function: the behaviour of the call of
    [set_event] is undefined.  An exception of [notify_one] would
    propagate. *)
Definition set_event (self : thread_self) (_ : applier)
  : world → behaviour thread_state :=
  λ w, match notify_one self w with
       | (Returned _, _) => undefined
       | (Thrown code msg, w') => defined (Thrown code msg, w')
       | (OutOfFuel, w') => defined (OutOfFuel, w')
       end.

(** Lines 130-135. *)
Definition set_error (self : thread_self) (_ : applier)
    (code : error) (msg : string) : M (option thread_state) :=
  HPX_THROW_EXCEPTION code msg.

End condition.
End detail.

(** ** hpx::lcos::condition (lines 146-174)

    [impl_] points to the one wrapped [detail::condition]; the [world] is
    that object's. *)

Module condition.

Definition new : world := detail.condition.new.

(** Lines 157-160. *)
Definition wait (self : thread_self) : M unit :=
  detail.condition.wait self.

(** Lines 162-165. *)
Definition notify_one (self : thread_self) : M unit :=
  detail.condition.notify_one self.

(** Lines 167-170: the body is [impl_->notify_one(self)]. *)
Definition notify_all (self : thread_self) : M unit :=
  detail.condition.notify_one self.

End condition.

(** ** Tasks that call the member functions concurrently

    Each task is at a program point of the member function it is in; one
    step executes one statement of one task.  The queue operations are
    atomic, so every interleaving of the calls is a sequence of such
    steps. *)

Module system.

Inductive pc : Type :=
| outside
    (** not inside a member function of the condition *)
| wait_enqueue
    (** in [wait], before line 105 *)
| wait_yield
    (** in [wait], before line 106 *)
| wait_suspended
    (** in [wait], inside [self.yield(threads::suspended)] *)
| notify_one_dequeue
    (** in [notify_one], before line 112, [id = 0] *)
| notify_one_set_state (id : thread_id_type)
    (** in [notify_one], before line 113 *)
| notify_all_dequeue (id : thread_id_type)
    (** in [notify_all], before the loop condition of line 119 *)
| notify_all_set_state (id : thread_id_type).
    (** in [notify_all], before the loop body of line 120 *)

(** The calls whose behaviour is defined and that touch the queue or the
    scheduler.  [set_event] is left out: its behaviour is undefined (see
    [detail.condition.set_event]), so nothing can be said of a run in which
    it is called. *)
Inductive call : Type :=
| call_wait
| call_notify_one
| call_notify_all.

(** The first program point of a call. *)
Definition entry (c : call) : pc :=
  match c with
  | call_wait => wait_enqueue
  | call_notify_one => notify_one_dequeue
  | call_notify_all => notify_all_dequeue 0%Z
  end.

Record task : Type := Task { self : thread_self; at_pc : pc }.

(** Modelled from the spec: the scheduler behind [self.yield] and
    [threads::set_state] is not defined in condition.hpp.  Section 6:
    [setRunnable(token)] transitions the task to runnable;
    [suspend(token)] returns control to the caller only once the token's
    state has been set runnable.  Section 4.2: [wait] suspends unless the
    caller is already marked runnable when suspension is attempted.
    [yield_returns st] tells whether a task inside [yield] whose recorded
    state is [st] continues. *)
Record scheduler : Type := Scheduler { yield_returns : thread_state → bool }.

(** Modelled from the spec: section 6, [suspend(token)] returns control to
    the caller only once the token's state has been set runnable. *)
Definition cooperative : scheduler :=
  {| yield_returns st := bool_decide (st = pending) |}.

(** No assumption on the scheduler: a task may leave [yield] at any time. *)
Definition unconstrained : scheduler :=
  {| yield_returns _ := true |}.

Record sys : Type := Sys {
  mem : world;
  sched : thread_id_type → thread_state;
  pool : list task
}.

(** Modelled from the spec: section 4.2, [wait] suspends unless the caller
    is already marked runnable by the time suspension is attempted; in that
    case it must not suspend.  This is what [yield(suspended)] records for
    the caller. *)
Definition sched_yield (id : thread_id_type)
    (sc : thread_id_type → thread_state) : thread_id_type → thread_state :=
  if decide (sc id = pending) then sc else <[id := suspended]> sc.

Definition move (i : nat) (T : task) (p : pc) (s : sys) : list task :=
  <[i := {| self := self T; at_pc := p |}]> (pool s).

(** One statement of the task [T], which is [pool s !! i]. *)
Definition advance_task (sch : scheduler) (i : nat) (T : task) (s : sys)
  : option sys :=
  let me := self T in
  match at_pc T with
  | outside => None
  | wait_enqueue =>
      Some {| mem := do_enqueue (get_thread_id me) (mem s);
              sched := sched s;
              pool := move i T wait_yield s |}
  | wait_yield =>
      Some {| mem := do_yield me suspended (mem s);
              sched := sched_yield (get_thread_id me) (sched s);
              pool := move i T wait_suspended s |}
  | wait_suspended =>
      if yield_returns sch (sched s (get_thread_id me))
      then Some {| mem := mem s;
                   sched := <[get_thread_id me := active]> (sched s);
                   pool := move i T outside s |}
      else None
  | notify_one_dequeue =>
      let '(ok, id, m) := do_dequeue 0%Z (mem s) in
      Some {| mem := m;
              sched := sched s;
              pool := move i T (if ok : bool then notify_one_set_state id
                                else outside) s |}
  | notify_one_set_state id =>
      Some {| mem := do_set_state me id pending (mem s);
              sched := <[id := pending]> (sched s);
              pool := move i T outside s |}
  | notify_all_dequeue id =>
      let '(ok, id, m) := do_dequeue id (mem s) in
      Some {| mem := m;
              sched := sched s;
              pool := move i T (if ok : bool then notify_all_set_state id
                                else outside) s |}
  | notify_all_set_state id =>
      Some {| mem := do_set_state me id pending (mem s);
              sched := <[id := pending]> (sched s);
              pool := move i T (notify_all_dequeue id) s |}
  end.

Inductive label : Type :=
| start (i : nat) (c : call)
    (** task [i] enters a member function *)
| advance (i : nat).
    (** task [i] executes its next statement *)

#[global] Instance pc_eq_dec : EqDecision pc.
Proof. solve_decision. Defined.

#[global] Instance call_eq_dec : EqDecision call.
Proof. solve_decision. Defined.

#[global] Instance label_eq_dec : EqDecision label.
Proof. solve_decision. Defined.

Definition step (sch : scheduler) (l : label) (s : sys) : option sys :=
  match l with
  | start i c =>
      T ← pool s !! i;
      match at_pc T with
      | outside =>
          Some {| mem := mem s; sched := sched s; pool := move i T (entry c) s |}
      | _ => None
      end
  | advance i =>
      T ← pool s !! i;
      advance_task sch i T s
  end.

Fixpoint run (sch : scheduler) (ls : list label) (s : sys) : option sys :=
  match ls with
  | [] => Some s
  | l :: ls' => s' ← step sch l s; run sch ls' s'
  end.

(** A fresh condition and tasks that have not called it yet. *)
Definition boot (selves : list thread_self) : sys :=
  {| mem := detail.condition.new;
     sched := λ _, active;
     pool := (λ me, {| self := me; at_pc := outside |}) <$> selves |}.

Definition ids (l : list task) : list thread_id_type :=
  (λ T, get_thread_id (self T)) <$> l.

Inductive reachable (sch : scheduler) : sys → Prop :=
| reachable_boot selves :
    NoDup (get_thread_id <$> selves) →
    reachable sch (boot selves)
| reachable_step s l s' :
    reachable sch s →
    step sch l s = Some s' →
    reachable sch s'.

(** *** Bookkeeping of one token [x] *)

Definition occurrences (x : thread_id_type) (l : list thread_id_type) : nat :=
  length (filter (λ y, y = x) l).

(** The task has dequeued [x] and has not yet called [set_state]. *)
Definition holds (x : thread_id_type) (T : task) : nat :=
  match at_pc T with
  | notify_one_set_state y | notify_all_set_state y =>
      if decide (y = x) then 1 else 0
  | _ => 0
  end.

(** The task is [x], has enqueued its token and has not left [wait]. *)
Definition registered (x : thread_id_type) (T : task) : nat :=
  if decide (get_thread_id (self T) = x)
  then match at_pc T with
       | wait_yield | wait_suspended => 1
       | _ => 0
       end
  else 0.

Definition runnable (x : thread_id_type)
    (sc : thread_id_type → thread_state) : nat :=
  if decide (sc x = pending) then 1 else 0.

(** Every enqueue of [x] is still queued, held by a notifier, or was
    handed to the scheduler. *)
Definition accounted (x : thread_id_type) (s : sys) : Prop :=
  occurrences x (enqueued (trace (mem s)))
  = (occurrences x (notified (trace (mem s)))
     + sum_list_with (holds x) (pool s)
     + occurrences x (queue_ (mem s)))%nat.

(** A token in flight (queued, held, or made runnable and not yet
    resumed) belongs to a task that is inside [wait]. *)
Definition in_flight (x : thread_id_type) (s : sys) : Prop :=
  (occurrences x (queue_ (mem s))
   + sum_list_with (holds x) (pool s)
   + runnable x (sched s))%nat
  = sum_list_with (registered x) (pool s).

End system.


(** ** What one run of the loop of [notify_all] does to a captured list *)

(** The calls made while the tokens [q] are dequeued and woken one by one. *)
Definition drain (self : thread_self) (q : list thread_id_type) : list event :=
  q ≫= λ t, [dequeue_call (Some t); set_state_call self t pending].

(** ** The tasks of the scenarios *)

Definition task_A : thread_self := {| get_thread_id := 1%Z |}.
Definition task_B : thread_self := {| get_thread_id := 2%Z |}.
Definition task_C : thread_self := {| get_thread_id := 3%Z |}.
Definition notifier : thread_self := {| get_thread_id := 9%Z |}.

(** [wait(A); wait(B); wait(C)] on a fresh condition, through the public
    class. *)
Definition three_waiters : world :=
  world_of (sequence_ (condition.wait <$> [task_A; task_B; task_C]) condition.new).

(** ** An interleaving of [notify_all] with a late [wait]

    Tasks 0, 1 and 2 of the pool are the notifier, A and B.  A waits and is
    suspended; the notifier enters [notify_all] and dequeues A; only then
    does B enter [wait] and enqueue its token; the notifier goes on with its
    loop until [dequeue] fails. *)

Definition late_waiter_pool : list thread_self := [notifier; task_A; task_B].

Definition late_waiter_schedule : list system.label :=
  [ system.start 1 system.call_wait;
    system.advance 1;                      (* A: queue_.enqueue *)
    system.advance 1;                      (* A: self.yield(suspended) *)
    system.start 0 system.call_notify_all;
    system.advance 0;                      (* notifier: dequeue, gets A *)
    system.start 2 system.call_wait;
    system.advance 2;                      (* B: queue_.enqueue *)
    system.advance 2;                      (* B: self.yield(suspended) *)
    system.advance 0;                      (* notifier: set_state(A) *)
    system.advance 0;                      (* notifier: dequeue, gets B *)
    system.advance 0;                      (* notifier: set_state(B) *)
    system.advance 0 ].                    (* notifier: dequeue fails *)

(** A task that leaves [yield] without having been notified and waits
    again. *)
Definition spurious_return_schedule : list system.label :=
  [ system.start 0 system.call_wait;
    system.advance 0;                      (* A: queue_.enqueue *)
    system.advance 0;                      (* A: self.yield(suspended) *)
    system.advance 0;                      (* A: yield returns *)
    system.start 0 system.call_wait;
    system.advance 0 ].                    (* A: queue_.enqueue *)

(** The state a schedule leads to from a fresh condition, under the
    scheduler of the spec (the initial state if the schedule cannot run). *)
Definition after (ls : list system.label) (selves : list thread_self)
  : system.sys :=
  default (system.boot selves)
          (system.run system.cooperative ls (system.boot selves)).

(** ** A call of [notify_all] among other calls *)








(** Tasks 0, 1, 2 and 3 of the pool are the notifier, a second notifier C,
    and the waiters A and B.  A and B wait; the notifier enters
    [notify_all] on the queue [1; 2]. *)
Definition beside_pool : list thread_self :=
  [notifier; task_C; task_A; task_B].

Definition two_waiters_setup : list system.label :=
  [ system.start 2 system.call_wait;
    system.advance 2;                      (* A: queue_.enqueue *)
    system.advance 2;                      (* A: self.yield(suspended) *)
    system.start 3 system.call_wait;
    system.advance 3;                      (* B: queue_.enqueue *)
    system.advance 3 ].                    (* B: self.yield(suspended) *)





(** A and B are queued and suspended, everybody else is outside a call;
    and the same with C about to enqueue its token. *)
Definition two_waiting : system.sys := after two_waiters_setup beside_pool.

Definition third_waiter_entered : system.sys :=
  after (two_waiters_setup ++ [system.start 1 system.call_wait]) beside_pool.

(** A waits, is let out of [yield] unnotified and waits again; the notifier
    then drains the queue with [notify_all]. *)
Definition requeue_then_drain_pool : list thread_self := [task_A; notifier].

Definition requeue_then_drain_schedule : list system.label :=
  spurious_return_schedule
  ++ [ system.start 1 system.call_notify_all;
       system.advance 1;                   (* notifier: dequeue, gets A *)
       system.advance 1;                   (* notifier: set_state(A) *)
       system.advance 1;                   (* notifier: dequeue, gets A *)
       system.advance 1;                   (* notifier: set_state(A) *)
       system.advance 1 ].                 (* notifier: dequeue fails *)

Definition after_unconstrained (ls : list system.label)
    (selves : list thread_self) : system.sys :=
  default (system.boot selves)
          (system.run system.unconstrained ls (system.boot selves)).

(** ** The history of a condition *)


(* ================================================================== *)
(** * Properties of the member functions, one call at a time *)
(* ================================================================== *)

Section Sequential.

Implicit Types (self : thread_self) (w : world) (q : list thread_id_type)
  (tr : list event) (t id : thread_id_type).

Lemma wait_run self w :
  detail.condition.wait self w
  = (Returned (),
     {| queue_ := queue_ w ++ [get_thread_id self];
        trace := trace w ++ [enqueue_call (get_thread_id self);
                             yield_call self suspended] |}).
Proof.
  destruct w as [q tr]. cbv [detail.condition.wait mbind M_bind queue_enqueue
    yield lift_world do_enqueue do_yield record fifo.enqueue queue_ trace].
  by rewrite <- app_assoc.
Qed.

Lemma notify_one_cons self t q tr :
  detail.condition.notify_one self {| queue_ := t :: q; trace := tr |}
  = (Returned (),
     {| queue_ := q;
        trace := tr ++ [dequeue_call (Some t); set_state_call self t pending] |}).
Proof.
  cbv [detail.condition.notify_one mbind M_bind queue_dequeue set_state
    lift_world do_dequeue do_set_state record fifo.dequeue queue_ trace].
  by rewrite <- app_assoc.
Qed.

Lemma notify_one_nil self tr :
  detail.condition.notify_one self {| queue_ := []; trace := tr |}
  = (Returned (), {| queue_ := []; trace := tr ++ [dequeue_call None] |}).
Proof. reflexivity. Qed.

Lemma notified_app tr1 tr2 : notified (tr1 ++ tr2) = notified tr1 ++ notified tr2.
Proof. apply omap_app. Qed.

Lemma enqueued_app tr1 tr2 : enqueued (tr1 ++ tr2) = enqueued tr1 ++ enqueued tr2.
Proof. apply omap_app. Qed.

Lemma yields_app tr1 tr2 : yields (tr1 ++ tr2) = yields tr1 ++ yields tr2.
Proof. apply omap_app. Qed.

Lemma notified_drain self q : notified (drain self q) = q.
Proof. induction q as [|t q IH]; [done|]. cbn. by f_equal. Qed.


(** Waiting tasks queue up in the order of their calls. *)
Lemma waits_run (selves : list thread_self) w :
  sequence_ (detail.condition.wait <$> selves) w
  = (Returned (),
     {| queue_ := queue_ w ++ (get_thread_id <$> selves);
        trace := trace w ++ (selves ≫= λ s, [enqueue_call (get_thread_id s);
                                              yield_call s suspended]) |}).
Proof.
  revert w. induction selves as [|s selves IH]; intros w.
  - cbn. rewrite !app_nil_r. by destruct w.
  - cbn [fmap list_fmap sequence_]. unfold mbind at 1, M_bind at 1.
    rewrite wait_run, IH. cbn [queue_ trace mbind list_bind].
    by rewrite <- !app_assoc.
Qed.

(** One evaluation of the loop condition, and one iteration if it holds. *)
Lemma notify_all_loop_cons fuel self id t q tr :
  detail.condition.notify_all_loop (S fuel) self id
    {| queue_ := t :: q; trace := tr |}
  = detail.condition.notify_all_loop fuel self t
      {| queue_ := q;
         trace := tr ++ [dequeue_call (Some t); set_state_call self t pending] |}.
Proof.
  cbn [detail.condition.notify_all_loop].
  cbv [mbind M_bind queue_dequeue set_state lift_world do_dequeue
    do_set_state record fifo.dequeue queue_ trace].
  by rewrite <- app_assoc.
Qed.

Lemma notify_all_loop_nil fuel self id tr :
  detail.condition.notify_all_loop (S fuel) self id
    {| queue_ := []; trace := tr |}
  = (Returned (), {| queue_ := []; trace := tr ++ [dequeue_call None] |}).
Proof. reflexivity. Qed.


(** With fuel for one more evaluation of the loop condition than there are
    queued tokens, the loop ends. *)
Lemma notify_all_loop_run (extra : nat) self id q tr :
  detail.condition.notify_all_loop (S (length q + extra)) self id
    {| queue_ := q; trace := tr |}
  = (Returned (),
     {| queue_ := []; trace := tr ++ drain self q ++ [dequeue_call None] |}).
Proof.
  revert id tr. induction q as [|t q IH]; intros id tr.
  - apply notify_all_loop_nil.
  - change (S (length (t :: q) + extra)) with (S (S (length q + extra))).
    rewrite notify_all_loop_cons, IH. cbn. by rewrite <- !app_assoc.
Qed.

End Sequential.

(* ================================================================== *)
(** * The claims about single calls *)
(* ================================================================== *)

(** C5: every [wait] first enqueues the token of the calling task and only
    then suspends it: the call returns normally, the token is the newest
    entry of the queue, and the calls it made are exactly one
    [queue_.enqueue] followed by exactly one [self.yield(suspended)].  The
    public [condition::wait] is the same call. *)
Theorem wait_enqueues_then_suspends_once (self : thread_self) (w : world) :
  let r := detail.condition.wait self w in
  result_of r = Returned ()
  ∧ queue_ (world_of r) = fifo.enqueue (get_thread_id self) (queue_ w)
  ∧ trace (world_of r)
    = trace w ++ [enqueue_call (get_thread_id self); yield_call self suspended]
  ∧ yields (trace (world_of r)) = yields (trace w) ++ [(self, suspended)]
  ∧ enqueued (trace (world_of r)) = enqueued (trace w) ++ [get_thread_id self]
  ∧ condition.wait self w = r.
Proof.
  cbv zeta. rewrite wait_run. cbn [result_of world_of fst snd queue_ trace].
  rewrite yields_app, enqueued_app. repeat split. apply wait_run.
Qed.

(** C3: [notify_one] dequeues and wakes the token that has waited longest.
    On a queue whose oldest entry is [t] it hands [t] to the scheduler and
    leaves the rest; after the waits of [first :: rest], in that order, it
    wakes [first]; and after wait(A); wait(B); wait(C) the first
    [notify_one] wakes A and leaves [B, C], the second wakes B and leaves
    [C]. *)
Theorem notify_one_wakes_longest_waiting :
  (∀ (self : thread_self) (t : thread_id_type) (q : list thread_id_type)
     (tr : list event),
     detail.condition.notify_one self {| queue_ := t :: q; trace := tr |}
     = (Returned (),
        {| queue_ := q;
           trace := tr ++ [dequeue_call (Some t);
                           set_state_call self t pending] |}))
  ∧ (∀ (self first : thread_self) (rest : list thread_self),
       let w := world_of (sequence_ (detail.condition.wait <$> first :: rest)
                            detail.condition.new) in
       let w' := world_of (detail.condition.notify_one self w) in
       queue_ w = get_thread_id first :: (get_thread_id <$> rest)
       ∧ queue_ w' = get_thread_id <$> rest
       ∧ notified (trace w') = [get_thread_id first])
  ∧ (let w1 := world_of (condition.notify_one notifier three_waiters) in
     let w2 := world_of (condition.notify_one notifier w1) in
     queue_ three_waiters = [1; 2; 3]%Z
     ∧ queue_ w1 = [2; 3]%Z ∧ notified (trace w1) = [1]%Z
     ∧ queue_ w2 = [3]%Z ∧ notified (trace w2) = [1; 2]%Z).
Proof.
  split; [exact notify_one_cons|]. split; [|by vm_compute].
  intros self first rest. cbv zeta. rewrite waits_run.
  cbn [world_of snd queue_ trace detail.condition.new fifo.empty app fmap
    list_fmap].
  rewrite notify_one_cons. cbn [world_of snd queue_ trace app].
  split; [done|]. split; [done|].
  rewrite notified_app. cbn [notified omap list_omap app].
  replace (notified _) with (@nil thread_id_type); [done|].
  clear. generalize (first :: rest). intros l.
  induction l as [|s l IH]; [done|]. exact IH.
Qed.

(** C4: [notify_one] on an empty queue does nothing: it returns normally,
    the queue is still empty, and the only call it made is the failed
    [dequeue]; no [set_state] and no [yield] is requested. *)
Theorem notify_one_on_empty_queue_is_noop (self : thread_self) (tr : list event) :
  let r := detail.condition.notify_one self {| queue_ := []; trace := tr |} in
  result_of r = Returned ()
  ∧ queue_ (world_of r) = []
  ∧ trace (world_of r) = tr ++ [dequeue_call None]
  ∧ notified (trace (world_of r)) = notified tr
  ∧ yields (trace (world_of r)) = yields tr
  ∧ enqueued (trace (world_of r)) = enqueued tr
  ∧ condition.notify_one self {| queue_ := []; trace := tr |} = r.
Proof.
  cbv zeta. rewrite notify_one_nil.
  cbn [result_of world_of fst snd queue_ trace].
  rewrite notified_app, yields_app, enqueued_app. cbn. rewrite !app_nil_r.
  repeat split.
Qed.

(** C8: [set_error] throws the exception with its code and message whatever
    the queue holds (empty or not), and leaves the world as it was: the
    queue is unchanged and no call is made on the queue or on the
    scheduler, so nothing is dequeued, enqueued or notified. *)
Theorem set_error_throws_and_keeps_queue
    (self : thread_self) (app : applier) (code : error) (msg : string)
    (w : world) :
  let r := detail.condition.set_error self app code msg w in
  r = (Thrown code msg, w)
  ∧ result_of r = Thrown code msg
  ∧ queue_ (world_of r) = queue_ w
  ∧ trace (world_of r) = trace w
  ∧ (∀ (k : option thread_state → M unit),
       (detail.condition.set_error self app code msg ≫= k) w
       = (Thrown code msg, w)).
Proof.
  cbv zeta. unfold detail.condition.set_error, HPX_THROW_EXCEPTION.
  cbn [result_of world_of fst snd]. repeat split.
Qed.

(** C9 (what the code does): [set_event] calls [notify_one] and then flows
    off the end of a function declared to return a [thread_state].  The
    call of [notify_one] always returns normally, so on every world, with an
    empty queue or not, the behaviour of [set_event] is undefined; a call of
    [notify_one] on the same world has a defined result. *)
Theorem set_event_flows_off_the_end
    (self : thread_self) (app : applier) (w : world) :
  detail.condition.set_event self app w = undefined
  ∧ result_of (detail.condition.notify_one self w) = Returned ()
  ∧ (∀ r : outcome thread_state * world,
       detail.condition.set_event self app w ≠ defined r).
Proof.
  assert (result_of (detail.condition.notify_one self w) = Returned ()) as Hret.
  { destruct w as [[|t q] tr]; [by rewrite notify_one_nil|].
    by rewrite notify_one_cons. }
  assert (detail.condition.set_event self app w = undefined) as Hundef.
  { unfold detail.condition.set_event.
    destruct (detail.condition.notify_one self w) as [[[]| |] w'];
      cbn in Hret; congruence. }
  split; [exact Hundef|]. split; [exact Hret|].
  intros r. by rewrite Hundef.
Qed.

(** C1 (what the code does): the public [notify_all] is one [notify_one].
    After wait(A); wait(B); wait(C) it wakes A alone and leaves [B, C]
    queued, and on any queue [t :: q] it wakes [t] and leaves [q]; the inner
    [notify_all] on the same world wakes A, B and C in that order and
    empties the queue. *)
Theorem public_notify_all_wakes_one_waiter :
  (let w := world_of (condition.notify_all notifier three_waiters) in
   queue_ three_waiters = [1; 2; 3]%Z
   ∧ queue_ w = [2; 3]%Z
   ∧ notified (trace w) = [1]%Z)
  ∧ (∀ (self : thread_self) (t : thread_id_type) (q : list thread_id_type)
       (tr : list event),
       condition.notify_all self {| queue_ := t :: q; trace := tr |}
       = (Returned (),
          {| queue_ := q;
             trace := tr ++ [dequeue_call (Some t);
                             set_state_call self t pending] |}))
  ∧ (let w := world_of (detail.condition.notify_all 4 notifier three_waiters) in
     queue_ w = [] ∧ notified (trace w) = [1; 2; 3]%Z).
Proof.
  split; [by vm_compute|]. split; [exact notify_one_cons | by vm_compute].
Qed.

(* ================================================================== *)
(** * Interleaved calls *)
(* ================================================================== *)

Section Interleavings.

Import system.

Implicit Types (s : sys) (x y : thread_id_type) (T : task) (l : list task)
  (sch : scheduler).

(** *** Counting *)

Lemma occurrences_nil x : occurrences x [] = 0%nat.
Proof. reflexivity. Qed.

Lemma occurrences_app x (l1 l2 : list thread_id_type) :
  occurrences x (l1 ++ l2) = (occurrences x l1 + occurrences x l2)%nat.
Proof. unfold occurrences. by rewrite list.filter_app, length_app. Qed.

Lemma occurrences_cons x y (q : list thread_id_type) :
  occurrences x (y :: q)
  = ((if decide (y = x) then 1 else 0) + occurrences x q)%nat.
Proof.
  unfold occurrences. rewrite filter_cons. by destruct (decide (y = x)).
Qed.

Lemma occurrences_singleton x y :
  occurrences x [y] = if decide (y = x) then 1%nat else 0%nat.
Proof. rewrite occurrences_cons, occurrences_nil. by destruct (decide _). Qed.

Lemma occurrences_pos x (q : list thread_id_type) :
  x ∈ q → (0 < occurrences x q)%nat.
Proof.
  induction q as [|y q IH]; [by rewrite elem_of_nil|].
  rewrite elem_of_cons, occurrences_cons. intros [->|Hin].
  - rewrite decide_True by done. lia.
  - specialize (IH Hin). lia.
Qed.

Lemma occurrences_le_1_NoDup (q : list thread_id_type) :
  (∀ x, (occurrences x q ≤ 1)%nat) → NoDup q.
Proof.
  induction q as [|y q IH]; intros Hq; [constructor|].
  apply list.NoDup_cons. split.
  - intros Hin%occurrences_pos. specialize (Hq y).
    rewrite occurrences_cons, decide_True in Hq by done. lia.
  - apply IH. intros x. specialize (Hq x). rewrite occurrences_cons in Hq. lia.
Qed.

Lemma sum_list_with_insert (f : task → nat) l i T T' :
  l !! i = Some T →
  (sum_list_with f (<[i:=T']> l) + f T = sum_list_with f l + f T')%nat.
Proof.
  revert i. induction l as [|U l IH]; intros [|i] Hi; try done.
  - cbn in Hi. injection Hi as ->. simpl. lia.
  - cbn in Hi. simpl. specialize (IH i Hi). lia.
Qed.

Lemma sum_list_with_lookup (f : task → nat) l i T :
  l !! i = Some T → (f T ≤ sum_list_with f l)%nat.
Proof. intros Hi. apply sum_list_with_in. eapply list_elem_of_lookup_2, Hi. Qed.

Lemma ids_move l i T T' :
  l !! i = Some T → self T' = self T → ids (<[i := T']> l) = ids l.
Proof.
  intros Hi Hself. unfold ids. rewrite list_fmap_insert, Hself.
  apply list_insert_id. by rewrite list_lookup_fmap, Hi.
Qed.

Lemma registered_le_1 x l :
  NoDup (ids l) → (sum_list_with (registered x) l ≤ 1)%nat.
Proof.
  induction l as [|T l IH]; [simpl; lia|].
  change (ids (T :: l)) with (get_thread_id (self T) :: ids l).
  rewrite list.NoDup_cons. intros [Hnin Hnd]. specialize (IH Hnd).
  simpl. unfold registered at 1. destruct (decide _) as [<-|]; [|lia].
  assert (sum_list_with (registered (get_thread_id (self T))) l = 0%nat) as ->.
  { clear IH Hnd. induction l as [|U l IHl]; [done|].
    change (ids (U :: l)) with (get_thread_id (self U) :: ids l) in Hnin.
    rewrite not_elem_of_cons in Hnin. destruct Hnin as [Hne Hnin].
    simpl. rewrite (IHl Hnin). unfold registered.
    rewrite decide_False by done. lia. }
  destruct (at_pc T); lia.
Qed.

(** *** One step *)

Ltac step_inv H :=
  let T := fresh "T" in
  let HT := fresh "HT" in
  let Hpc := fresh "Hpc" in
  match type of H with
  | step _ ?l ?s = Some _ =>
      destruct l as [?i ?c|?i]; cbn [step pool mem sched] in H;
      match type of H with
      | context [?pl !! ?i] =>
          destruct (pl !! i) as [T|] eqn:HT;
          cbn [mbind option_bind] in H; [|discriminate H]
      end;
      [ destruct T as [?me []]; cbn [at_pc self] in H; try discriminate H
      | unfold advance_task in H;
        destruct T as [?me []]; cbn [at_pc self pool mem sched] in H;
        try discriminate H ]
  end.

Lemma step_ids sch lb s s' :
  step sch lb s = Some s' → ids (pool s') = ids (pool s).
Proof.
  intros H. destruct s as [[q tr] sc pl]. step_inv H.
  all: try (destruct (yield_returns _ _); [|discriminate H]).
  all: try (destruct q as [|t q]; cbn in H).
  all: injection H as <-; cbn [pool]; unfold move; cbn [pool self];
       by eapply ids_move.
Qed.

(** What a step does to the trace: nothing, or one more call. *)
Lemma step_trace sch lb s s' :
  step sch lb s = Some s' →
  trace (mem s') = trace (mem s) ∨ ∃ e, trace (mem s') = trace (mem s) ++ [e].
Proof.
  intros H. destruct s as [[q tr] sc pl]. step_inv H.
  all: try (destruct (yield_returns _ _); [|discriminate H]).
  all: try (destruct q as [|t q]; cbn in H).
  all: injection H as <-; cbn [mem trace]; eauto.
Qed.

Ltac pose_sum f x HT :=
  match goal with
  | |- context [sum_list_with (f x) (<[?i := ?T']> ?pl)] =>
      let Hsum := fresh "Hsum" in
      let Hle := fresh "Hle" in
      pose proof (sum_list_with_insert (f x) pl i _ T' HT) as Hsum;
      pose proof (sum_list_with_lookup (f x) pl i _ HT) as Hle;
      let S1 := fresh "S" in
      let S2 := fresh "S" in
      set (S1 := sum_list_with (f x) (<[i := T']> pl)) in *;
      set (S2 := sum_list_with (f x) pl) in *;
      clearbody S1 S2;
      unfold holds, registered in Hsum, Hle; cbn [at_pc self] in Hsum, Hle
  end.

Ltac open_step H HT x :=
  injection H as <-;
  try match goal with c : call |- _ => destruct c end;
  cbn [entry];
  cbn [mem sched pool queue_ trace] in *; unfold move; cbn [pool self];
  try pose_sum holds x HT; try pose_sum registered x HT.

Ltac count_events :=
  cbv [do_enqueue do_dequeue do_set_state do_yield record fifo.enqueue
    fifo.dequeue queue_ trace];
  rewrite ?enqueued_app, ?notified_app, ?occurrences_app;
  cbn [enqueued notified omap list_omap];
  rewrite ?occurrences_singleton, ?occurrences_cons, ?occurrences_nil.

Lemma accounted_step sch lb s s' x :
  accounted x s → step sch lb s = Some s' → accounted x s'.
Proof.
  intros Hacc H. destruct s as [[q tr] sc pl]. unfold accounted in *.
  step_inv H.
  all: try (destruct (yield_returns _ _); [|discriminate H]).
  all: try (destruct q as [|t q]; cbn in H).
  all: open_step H HT x; count_events.
  all: rewrite ?occurrences_cons, ?occurrences_nil in Hacc.
  all: repeat case_decide; try lia; congruence.
Qed.

Lemma runnable_insert x y (st : thread_state)
    (sc : thread_id_type → thread_state) :
  runnable x (<[y := st]> sc)
  = if decide (y = x)
    then (if decide (st = pending) then 1%nat else 0%nat)
    else runnable x sc.
Proof.
  unfold runnable. destruct (decide (y = x)) as [->|Hne].
  - by rewrite fn_lookup_insert.
  - by rewrite fn_lookup_insert_ne.
Qed.

Lemma runnable_sched_yield x y (sc : thread_id_type → thread_state) :
  runnable x (sched_yield y sc) = runnable x sc.
Proof.
  unfold sched_yield. destruct (decide (sc y = pending)) as [|Hnp]; [done|].
  rewrite runnable_insert. destruct (decide (y = x)) as [->|]; [|done].
  unfold runnable. rewrite decide_False by done. by rewrite decide_False.
Qed.

Lemma in_flight_step lb s s' x :
  NoDup (ids (pool s)) →
  in_flight x s → step cooperative lb s = Some s' → in_flight x s'.
Proof.
  intros Hnd Hin H. destruct s as [[q tr] sc pl]. unfold in_flight in *.
  cbn [pool mem sched queue_] in *.
  pose proof (registered_le_1 x pl Hnd) as Hone.
  step_inv H.
  all: try (destruct (yield_returns _ _) eqn:Hy;
            [apply bool_decide_eq_true in Hy|discriminate H]).
  all: try (destruct q as [|t q]; cbn in H).
  all: open_step H HT x.
  all: cbv [do_enqueue do_dequeue do_set_state do_yield record fifo.enqueue
         fifo.dequeue queue_ trace].
  all: rewrite ?runnable_insert, ?runnable_sched_yield, ?occurrences_app,
         ?occurrences_singleton, ?occurrences_cons, ?occurrences_nil.
  all: rewrite ?occurrences_cons, ?occurrences_nil in Hin.
  all: unfold runnable in *.
  all: repeat case_decide; try lia; congruence.
Qed.

(** *** Reachable states *)

Lemma reachable_run sch ls s s' :
  reachable sch s → run sch ls s = Some s' → reachable sch s'.
Proof.
  revert s. induction ls as [|lb ls IH]; intros s Hs Hrun; cbn in Hrun.
  - by injection Hrun as <-.
  - destruct (step sch lb s) as [s1|] eqn:Hstep; [|discriminate Hrun].
    cbn in Hrun. eapply IH; [|exact Hrun]. by eapply reachable_step.
Qed.

Lemma reachable_after ls (selves : list thread_self) :
  NoDup (get_thread_id <$> selves) → reachable cooperative (after ls selves).
Proof.
  intros Hnd. unfold after.
  destruct (run cooperative ls (boot selves)) as [s'|] eqn:Hrun; cbn.
  - eapply reachable_run; [|exact Hrun]. by constructor.
  - by constructor.
Qed.

Lemma ids_boot (selves : list thread_self) :
  ids (pool (boot selves)) = get_thread_id <$> selves.
Proof.
  unfold ids, boot. cbn [pool]. rewrite <- list_fmap_compose.
  by apply list_fmap_ext.
Qed.

Lemma sum_boot (f : task → nat) (selves : list thread_self) :
  (∀ me, f {| self := me; at_pc := outside |} = 0%nat) →
  sum_list_with f (pool (boot selves)) = 0%nat.
Proof.
  intros Hf. cbn [boot pool]. induction selves as [|me selves IH]; [done|].
  simpl. rewrite Hf. exact IH.
Qed.

Lemma reachable_ids sch s : reachable sch s → NoDup (ids (pool s)).
Proof.
  induction 1 as [selves Hnd|s lb s' _ IH Hstep].
  - by rewrite ids_boot.
  - by rewrite (step_ids _ _ _ _ Hstep).
Qed.

Lemma reachable_accounted sch s x : reachable sch s → accounted x s.
Proof.
  induction 1 as [selves Hnd|s lb s' _ IH Hstep].
  - unfold accounted. rewrite sum_boot; [done|]. intros me. reflexivity.
  - by eapply accounted_step.
Qed.

Lemma reachable_in_flight s x : reachable cooperative s → in_flight x s.
Proof.
  induction 1 as [selves Hnd|s lb s' Hs IH Hstep].
  - unfold in_flight. rewrite !sum_boot; [done| |]; intros me.
    + unfold registered. by destruct (decide _).
    + reflexivity.
  - eapply in_flight_step; [|exact IH|exact Hstep]. by eapply reachable_ids.
Qed.

Lemma prefix_snoc_inv (e : event) (p tr : list event) :
  p `prefix_of` tr ++ [e] → p `prefix_of` tr ∨ p = tr ++ [e].
Proof.
  intros [k Hk]. destruct k as [|e' k _] using rev_ind.
  - right. by rewrite app_nil_r in Hk.
  - left. rewrite app_assoc in Hk. apply app_inj_tail in Hk as [-> _].
    by exists k.
Qed.

(** Something that holds of the whole trace of every reachable state holds
    of every prefix of such a trace. *)
Lemma reachable_prefixes sch (P : list event → Prop) :
  P [] →
  (∀ s, reachable sch s → P (trace (mem s))) →
  ∀ s p, reachable sch s → p `prefix_of` trace (mem s) → P p.
Proof.
  intros Hnil Hall s p Hs. revert p.
  induction Hs as [selves Hnd|s lb s' Hs IH Hstep]; intros p Hp.
  - cbn in Hp. apply prefix_nil_inv in Hp as ->. exact Hnil.
  - destruct (step_trace _ _ _ _ Hstep) as [Heq|[e Heq]]; rewrite Heq in Hp.
    + by apply IH.
    + apply prefix_snoc_inv in Hp as [Hp| ->]; [by apply IH|].
      rewrite <- Heq. apply Hall. by eapply reachable_step.
Qed.

(** Whatever the scheduler does, no token is handed to it more often than
    it was enqueued. *)
Lemma notified_le_enqueued sch s x p :
  reachable sch s → p `prefix_of` trace (mem s) →
  (occurrences x (notified p) ≤ occurrences x (enqueued p))%nat.
Proof.
  apply (reachable_prefixes sch
    (λ p, (occurrences x (notified p) ≤ occurrences x (enqueued p))%nat)).
  - done.
  - intros s' Hs'. pose proof (reachable_accounted _ _ x Hs') as Hacc.
    unfold accounted in Hacc. lia.
Qed.

(** Under the scheduler of the spec a token has at most one enqueue that
    was not yet answered by a [set_state]. *)
Lemma outstanding_le_1 s x :
  reachable cooperative s →
  (occurrences x (queue_ (mem s)) + sum_list_with (holds x) (pool s) ≤ 1)%nat.
Proof.
  intros Hs. pose proof (reachable_in_flight _ x Hs) as Hin.
  pose proof (registered_le_1 x _ (reachable_ids _ _ Hs)) as Hone.
  unfold in_flight in Hin. lia.
Qed.

Lemma enqueued_le_notified_S s x p :
  reachable cooperative s → p `prefix_of` trace (mem s) →
  (occurrences x (enqueued p) ≤ occurrences x (notified p) + 1)%nat.
Proof.
  apply (reachable_prefixes cooperative
    (λ p, (occurrences x (enqueued p) ≤ occurrences x (notified p) + 1)%nat)).
  - cbn. lia.
  - intros s' Hs'. pose proof (reachable_accounted _ _ x Hs') as Hacc.
    pose proof (outstanding_le_1 _ x Hs') as Hout.
    unfold accounted in Hacc. lia.
Qed.

Lemma reachable_queue_NoDup s : reachable cooperative s → NoDup (queue_ (mem s)).
Proof.
  intros Hs. apply occurrences_le_1_NoDup. intros x.
  pose proof (outstanding_le_1 _ x Hs). lia.
Qed.

(** *** A call that runs alone is the member function of the monad *)

Lemma lookup_insert_same l i T T' : l !! i = Some T → <[i:=T']> l !! i = Some T'.
Proof. intros H. apply list_lookup_insert_eq. by eapply lookup_lt_Some. Qed.

Lemma run_start sch i c ls s me :
  pool s !! i = Some {| self := me; at_pc := outside |} →
  run sch (start i c :: ls) s
  = run sch ls {| mem := mem s; sched := sched s;
                  pool := <[i := {| self := me; at_pc := entry c |}]> (pool s) |}.
Proof. intros HT. cbn [run step]. by rewrite HT. Qed.

Lemma run_advance sch i ls s T :
  pool s !! i = Some T →
  run sch (advance i :: ls) s = advance_task sch i T s ≫= run sch ls.
Proof. intros HT. cbn [run step]. by rewrite HT. Qed.

Lemma run_advance_moved sch i ls w sc l T T' :
  l !! i = Some T →
  run sch (advance i :: ls) {| mem := w; sched := sc; pool := <[i:=T']> l |}
  = advance_task sch i T' {| mem := w; sched := sc; pool := <[i:=T']> l |}
    ≫= run sch ls.
Proof. intros HT. apply run_advance. by eapply lookup_insert_same. Qed.

Ltac solo_step HT :=
  rewrite (run_advance_moved _ _ _ _ _ _ _ _ HT);
  cbn [advance_task at_pc self mem sched pool mbind option_bind
       do_dequeue fifo.dequeue queue_ trace];
  unfold move; cbn [pool self mbind option_bind];
  rewrite ?list_insert_insert_eq.

Lemma solo_wait sch s i me :
  pool s !! i = Some {| self := me; at_pc := outside |} →
  ∃ s', run sch [start i call_wait; advance i; advance i] s = Some s'
        ∧ mem s' = world_of (detail.condition.wait me (mem s))
        ∧ pool s' !! i = Some {| self := me; at_pc := wait_suspended |}.
Proof.
  intros HT. destruct s as [w sc pl]. cbn [pool] in HT.
  eexists. split.
  - erewrite run_start by exact HT. cbn [mem sched pool entry].
    do 2 solo_step HT. reflexivity.
  - cbn [mem pool]. split.
    + rewrite wait_run. destruct w as [q tr].
      cbv [world_of snd do_yield do_enqueue record fifo.enqueue queue_ trace].
      by rewrite <- app_assoc.
    + by eapply lookup_insert_same.
Qed.

Lemma solo_notify_one sch s i me :
  pool s !! i = Some {| self := me; at_pc := outside |} →
  ∃ n s', run sch (start i call_notify_one :: replicate n (advance i)) s = Some s'
          ∧ mem s' = world_of (detail.condition.notify_one me (mem s))
          ∧ pool s' !! i = Some {| self := me; at_pc := outside |}.
Proof.
  intros HT. destruct s as [[[|t q] tr] sc pl]; cbn [pool] in HT.
  - exists 1%nat. cbn [replicate]. eexists. split.
    + erewrite run_start by exact HT. cbn [mem sched pool entry].
      solo_step HT. reflexivity.
    + cbn [mem pool]. split; [done|]. by eapply lookup_insert_same.
  - exists 2%nat. cbn [replicate]. eexists. split.
    + erewrite run_start by exact HT. cbn [mem sched pool entry].
      do 2 solo_step HT. reflexivity.
    + cbn [mem pool]. split.
      * rewrite notify_one_cons.
        cbv [world_of snd do_set_state record queue_ trace].
        by rewrite <- app_assoc.
      * by eapply lookup_insert_same.
Qed.

Lemma solo_notify_all_loop sch i me l T (q : list thread_id_type) :
  l !! i = Some T →
  ∀ (id : thread_id_type) (tr : list event) (sc : thread_id_type → thread_state),
  ∃ s', run sch (replicate (2 * length q + 1) (advance i))
          {| mem := {| queue_ := q; trace := tr |};
             sched := sc;
             pool := <[i := {| self := me; at_pc := notify_all_dequeue id |}]> l |}
        = Some s'
        ∧ mem s' = world_of (detail.condition.notify_all_loop (S (length q)) me id
                               {| queue_ := q; trace := tr |})
        ∧ pool s' !! i = Some {| self := me; at_pc := outside |}.
Proof.
  intros HT. induction q as [|t q IH]; intros id tr sc.
  - eexists. split.
    + cbn [length Nat.mul Nat.add replicate]. solo_step HT. reflexivity.
    + cbn [mem pool]. split; [done|]. by eapply lookup_insert_same.
  - replace (2 * length (t :: q) + 1)%nat
      with (S (S (2 * length q + 1))) by (cbn [length]; lia).
    cbn [replicate]. do 2 solo_step HT.
    destruct (IH t (tr ++ [dequeue_call (Some t); set_state_call me t pending])
                (<[t := pending]> sc)) as (s' & Hrun & Hmem & Hpool).
    exists s'. split; [|split; [|exact Hpool]].
    + rewrite <- Hrun. cbv [do_set_state record queue_ trace].
      by rewrite <- app_assoc.
    + rewrite Hmem. change (length (t :: q)) with (S (length q)).
      by rewrite notify_all_loop_cons.
Qed.

Lemma solo_notify_all sch s i me :
  pool s !! i = Some {| self := me; at_pc := outside |} →
  ∃ s', run sch (start i call_notify_all
                 :: replicate (2 * length (queue_ (mem s)) + 1) (advance i)) s
        = Some s'
        ∧ mem s' = world_of (detail.condition.notify_all
                               (S (length (queue_ (mem s)))) me (mem s))
        ∧ pool s' !! i = Some {| self := me; at_pc := outside |}.
Proof.
  intros HT. destruct s as [[q tr] sc pl]. cbn [pool mem queue_] in *.
  erewrite run_start by exact HT. cbn [mem sched pool entry].
  apply (solo_notify_all_loop sch i me pl _ q HT).
Qed.

Lemma reachable_unconstrained_after ls (selves : list thread_self) s :
  NoDup (get_thread_id <$> selves) →
  run unconstrained ls (boot selves) = Some s →
  reachable unconstrained s.
Proof. intros Hnd Hrun. eapply reachable_run; [|exact Hrun]. by constructor. Qed.

Lemma solo_notify_one_bounded sch s i me :
  pool s !! i = Some {| self := me; at_pc := outside |} →
  ∃ n s', (n ≤ 2)%nat
          ∧ run sch (start i call_notify_one :: replicate n (advance i)) s
            = Some s'
          ∧ mem s' = world_of (detail.condition.notify_one me (mem s))
          ∧ pool s' !! i = Some {| self := me; at_pc := outside |}.
Proof.
  intros HT. destruct s as [[[|t q] tr] sc pl]; cbn [pool] in HT.
  - exists 1%nat. cbn [replicate]. eexists. split; [lia|]. split.
    + erewrite run_start by exact HT. cbn [mem sched pool entry].
      solo_step HT. reflexivity.
    + cbn [mem pool]. split; [done|]. by eapply lookup_insert_same.
  - exists 2%nat. cbn [replicate]. eexists. split; [lia|]. split.
    + erewrite run_start by exact HT. cbn [mem sched pool entry].
      do 2 solo_step HT. reflexivity.
    + cbn [mem pool]. split.
      * rewrite notify_one_cons.
        cbv [world_of snd do_set_state record queue_ trace].
        by rewrite <- app_assoc.
      * by eapply lookup_insert_same.
Qed.

(** *** A call of [notify_all] while nobody enqueues *)









End Interleavings.

(* ================================================================== *)
(** * The claims about interleaved calls *)
(* ================================================================== *)

(** C2 (what the code does): the inner [notify_all] does not capture the
    queue; it dequeues in a loop until [dequeue] fails.  In the schedule
    [late_waiter_schedule], B enqueues its token after the notifier has
    already dequeued A, and the same invocation of [notify_all] dequeues B
    and hands it to the scheduler as well: the queue ends empty instead of
    holding B. *)
Theorem notify_all_wakes_late_waiter :
  system.mem (after late_waiter_schedule late_waiter_pool)
  = {| queue_ := [];
       trace := [ enqueue_call 1%Z;
                  yield_call task_A suspended;
                  dequeue_call (Some 1%Z);
                  enqueue_call 2%Z;
                  yield_call task_B suspended;
                  set_state_call notifier 1%Z pending;
                  dequeue_call (Some 2%Z);
                  set_state_call notifier 2%Z pending;
                  dequeue_call None ] |}
  ∧ system.pool (after late_waiter_schedule late_waiter_pool) !! 0%nat
    = Some {| system.self := notifier; system.at_pc := system.outside |}
  ∧ notified (trace (system.mem (after late_waiter_schedule late_waiter_pool)))
    = [1; 2]%Z
  ∧ is_Some (system.run system.cooperative late_waiter_schedule
               (system.boot late_waiter_pool)).
Proof.
  split; [by vm_compute|]. split; [by vm_compute|]. split; [by vm_compute|].
  eexists. vm_compute. reflexivity.
Qed.

(** [wait] does not look for its token in the queue.  Under the scheduler
    of the spec the schedule [spurious_return_schedule] cannot run (A stays
    inside [yield]); with a scheduler that lets A out of [yield] unnotified
    the token of A is queued twice.  The uniqueness of tokens rests on the
    scheduler, not on a check in [wait]. *)
Remark wait_does_not_check_for_duplicates :
  system.run system.cooperative spurious_return_schedule (system.boot [task_A])
  = None
  ∧ (λ s, queue_ (system.mem s))
    <$> system.run system.unconstrained spurious_return_schedule
          (system.boot [task_A])
    = Some [1; 1]%Z.
Proof. split; by vm_compute. Qed.

(** C6: in every interleaving of calls to [wait], [notify_one] (and
    [notify_all]), at every moment of the history and for every
    token, the number of [set_state(_, x, pending)] calls is at most the
    number of [enqueue(x)] calls and at least that number minus one: each
    notification of [x] answers exactly one earlier enqueue of [x], and no
    enqueue is answered twice.  A token is in the queue only while one of
    its enqueues is unanswered, and the history only grows. *)
Theorem notified_once_per_enqueue (s : system.sys) :
  system.reachable system.cooperative s →
  (∀ (x : thread_id_type) (p : list event),
     p `prefix_of` trace (system.mem s) →
     (system.occurrences x (notified p) ≤ system.occurrences x (enqueued p)
      ∧ system.occurrences x (enqueued p)
        ≤ system.occurrences x (notified p) + 1)%nat)
  ∧ (∀ x : thread_id_type,
       (system.occurrences x (queue_ (system.mem s))
        + system.occurrences x (notified (trace (system.mem s)))
        ≤ system.occurrences x (enqueued (trace (system.mem s))))%nat)
  ∧ (∀ (lb : system.label) (s' : system.sys),
       system.step system.cooperative lb s = Some s' →
       trace (system.mem s) `prefix_of` trace (system.mem s')).
Proof.
  intros Hs. split; [|split].
  - intros x p Hp. split.
    + by eapply notified_le_enqueued.
    + by eapply enqueued_le_notified_S.
  - intros x. pose proof (reachable_accounted _ _ x Hs) as Hacc.
    unfold system.accounted in Hacc. lia.
  - intros lb s' Hstep.
    destruct (step_trace _ _ _ _ Hstep) as [->|[e ->]]; [done|].
    by apply prefix_app_r.
Qed.

Lemma notified_once_per_enqueue_witness :
  system.reachable system.cooperative
    (after late_waiter_schedule late_waiter_pool)
  ∧ (system.occurrences 1%Z
       (notified (trace (system.mem (after late_waiter_schedule late_waiter_pool))))
     ≤ system.occurrences 1%Z
         (enqueued (trace (system.mem (after late_waiter_schedule late_waiter_pool)))))%nat.
Proof.
  assert (system.reachable system.cooperative
            (after late_waiter_schedule late_waiter_pool)) as Hs.
  { apply reachable_after. compute_done. }
  split; [exact Hs|].
  destruct (notified_once_per_enqueue _ Hs) as [Hbal _].
  exact (proj1 (Hbal 1%Z _ (reflexivity _))).
Defined.

(** C7: at every reachable state each token occurs at most once in the
    queue, and every step of [wait], [notify_one] and [notify_all] leads to
    a state where this still holds. *)
Theorem queue_tokens_unique (s : system.sys) :
  system.reachable system.cooperative s →
  NoDup (queue_ (system.mem s))
  ∧ (∀ (lb : system.label) (s' : system.sys),
       system.step system.cooperative lb s = Some s' →
       NoDup (queue_ (system.mem s'))).
Proof.
  intros Hs. split; [by apply reachable_queue_NoDup|].
  intros lb s' Hstep. apply reachable_queue_NoDup.
  by eapply system.reachable_step.
Qed.

Lemma queue_tokens_unique_witness :
  system.reachable system.cooperative third_waiter_entered
  ∧ queue_ (system.mem third_waiter_entered) = [1; 2]%Z
  ∧ NoDup (queue_ (system.mem third_waiter_entered))
  ∧ ∃ s' : system.sys,
      system.step system.cooperative (system.advance 1) third_waiter_entered
      = Some s'
      ∧ queue_ (system.mem s') = [1; 2; 3]%Z
      ∧ NoDup (queue_ (system.mem s')).
Proof.
  assert (system.reachable system.cooperative third_waiter_entered) as Hs.
  { apply reachable_after. compute_done. }
  destruct (queue_tokens_unique _ Hs) as [Hnd Hstep].
  split; [exact Hs|]. split; [reflexivity|]. split; [exact Hnd|].
  eexists. split; [vm_compute; reflexivity|]. split; [reflexivity|].
  apply (Hstep (system.advance 1)). vm_compute. reflexivity.
Defined.




(* ================================================================== *)
(** * Further properties of the member functions *)
(* ================================================================== *)

Section Composition.

Implicit Types (self : thread_self) (w : world) (q : list thread_id_type)
  (tr : list event) (t id : thread_id_type).

Lemma sequence_cons (m : M unit) (ms : list (M unit)) w :
  sequence_ (m :: ms) w
  = match m w with
    | (Returned _, w') => sequence_ ms w'
    | (Thrown code msg, w') => (Thrown code msg, w')
    | (OutOfFuel, w') => (OutOfFuel, w')
    end.
Proof. reflexivity. Qed.

(** [n] calls of [notify_one], one after the other. *)
Lemma notify_one_replicate (n : nat) self q tr :
  sequence_ (replicate n (detail.condition.notify_one self))
    {| queue_ := q; trace := tr |}
  = (Returned (),
     {| queue_ := drop n q;
        trace := tr ++ drain self (take n q)
                    ++ replicate (n - length q) (dequeue_call None) |}).
Proof.
  revert q tr. induction n as [|n IH]; intros q tr.
  - cbn. by rewrite app_nil_r.
  - cbn [replicate]. rewrite sequence_cons. destruct q as [|t q].
    + rewrite notify_one_nil, IH. rewrite drop_nil, take_nil, Nat.sub_0_r.
      cbn. by rewrite <- app_assoc.
    + rewrite notify_one_cons, IH. cbn. by rewrite <- !app_assoc.
Qed.

Lemma notified_replicate_failed (n : nat) :
  notified (replicate n (dequeue_call None)) = [].
Proof. induction n as [|n IH]; [done|]. exact IH. Qed.

Lemma enqueued_drain self q : enqueued (drain self q) = [].
Proof. induction q as [|t q IH]; [done|]. exact IH. Qed.

Lemma yields_drain self q : yields (drain self q) = [].
Proof. induction q as [|t q IH]; [done|]. exact IH. Qed.

(** What the loop of [notify_all] leaves, whatever fuel it is given. *)
Lemma notify_all_loop_any_fuel (fuel : nat) self id q tr :
  ∃ (r : outcome unit) (q1 q2 : list thread_id_type) (rest : list event),
    detail.condition.notify_all_loop fuel self id {| queue_ := q; trace := tr |}
    = (r, {| queue_ := q2; trace := tr ++ drain self q1 ++ rest |})
    ∧ q = q1 ++ q2
    ∧ (rest = [] ∨ rest = [dequeue_call None]).
Proof.
  revert id q tr. induction fuel as [|fuel IH]; intros id q tr.
  - exists OutOfFuel, [], q, []. cbn. rewrite app_nil_r. auto.
  - destruct q as [|t q].
    + exists (Returned ()), [], [], [dequeue_call None].
      rewrite notify_all_loop_nil. auto.
    + rewrite notify_all_loop_cons.
      destruct (IH t q (tr ++ [dequeue_call (Some t);
                               set_state_call self t pending]))
        as (r & q1 & q2 & rest & -> & -> & Hrest).
      exists r, (t :: q1), q2, rest. split; [|auto].
      cbn. by rewrite <- !app_assoc.
Qed.

(** The notifying functions move tokens from the queue to the scheduler
    and do nothing else. *)
Lemma notify_all_loop_conserves (fuel : nat) self id w :
  let w' := world_of (detail.condition.notify_all_loop fuel self id w) in
  enqueued (trace w') = enqueued (trace w)
  ∧ yields (trace w') = yields (trace w)
  ∧ notified (trace w) `prefix_of` notified (trace w')
  ∧ notified (trace w') ++ queue_ w' = notified (trace w) ++ queue_ w.
Proof.
  cbv zeta. destruct w as [q tr].
  destruct (notify_all_loop_any_fuel fuel self id q tr)
    as (r & q1 & q2 & rest & -> & -> & Hrest).
  cbn [world_of snd queue_ trace].
  assert (enqueued rest = [] ∧ yields rest = [] ∧ notified rest = [])
    as (He & Hy & Hn) by (destruct Hrest as [-> | ->]; done).
  rewrite !enqueued_app, !yields_app, !notified_app, enqueued_drain,
    yields_drain, notified_drain, He, Hy, Hn, !app_nil_r.
  split; [done|]. split; [done|]. split; [by apply prefix_app_r|].
  by rewrite <- app_assoc.
Qed.

Lemma notify_one_conserves self w :
  let w' := world_of (detail.condition.notify_one self w) in
  enqueued (trace w') = enqueued (trace w)
  ∧ yields (trace w') = yields (trace w)
  ∧ notified (trace w') ++ queue_ w' = notified (trace w) ++ queue_ w.
Proof.
  cbv zeta. destruct w as [[|t q] tr].
  - rewrite notify_one_nil. cbn [world_of snd queue_ trace].
    rewrite enqueued_app, yields_app, notified_app. cbn.
    by rewrite !app_nil_r.
  - rewrite notify_one_cons. cbn [world_of snd queue_ trace].
    rewrite enqueued_app, yields_app, notified_app. cbn.
    rewrite !app_nil_r. split; [done|]. split; [done|].
    by rewrite <- app_assoc.
Qed.

Lemma notified_waits (selves : list thread_self) :
  notified (selves ≫= λ s, [enqueue_call (get_thread_id s);
                            yield_call s suspended]) = [].
Proof. induction selves as [|s selves IH]; [done|]. exact IH. Qed.

(** What the notifying functions leave queued is the end of what they
    found. *)
Lemma notify_all_loop_suffix (fuel : nat) self id w :
  queue_ (world_of (detail.condition.notify_all_loop fuel self id w))
  `suffix_of` queue_ w.
Proof.
  destruct w as [q tr].
  destruct (notify_all_loop_any_fuel fuel self id q tr)
    as (r & q1 & q2 & rest & -> & -> & _).
  cbn [world_of snd queue_]. by exists q1.
Qed.

Lemma notify_one_suffix self w :
  queue_ (world_of (detail.condition.notify_one self w)) `suffix_of` queue_ w.
Proof.
  destruct w as [[|t q] tr].
  - by rewrite notify_one_nil.
  - rewrite notify_one_cons. cbn [world_of snd queue_]. by exists [t].
Qed.

Lemma NoDup_suffix (l k : list thread_id_type) :
  l `suffix_of` k → NoDup k → NoDup l.
Proof. intros [p ->] Hnd. by apply list.NoDup_app in Hnd as (_ & _ & ?). Qed.

End Composition.

(** X1: [n] calls of [notify_one] in a row wake the [n] tokens that have
    waited longest, oldest first, and leave the others queued in their
    order; once the queue is empty every further call is a failed [dequeue]
    and nothing else. *)
Theorem notify_one_repeated_wakes_oldest_first
    (n : nat) (self : thread_self) (q : list thread_id_type)
    (tr : list event) :
  let r := sequence_ (replicate n (detail.condition.notify_one self))
             {| queue_ := q; trace := tr |} in
  result_of r = Returned ()
  ∧ queue_ (world_of r) = drop n q
  ∧ notified (trace (world_of r)) = notified tr ++ take n q
  ∧ trace (world_of r)
    = tr ++ drain self (take n q)
         ++ replicate (n - length q) (dequeue_call None).
Proof.
  cbv zeta. rewrite notify_one_replicate.
  cbn [result_of world_of fst snd queue_ trace]. repeat split.
  by rewrite !notified_app, notified_drain, notified_replicate_failed,
    app_nil_r.
Qed.

(** X2: the inner [notify_all] leaves the world that [length q + 1] calls
    of [notify_one] leave: the same queue and the very same calls on the
    queue and on the scheduler. *)
Theorem notify_all_is_notify_one_until_empty
    (self : thread_self) (q : list thread_id_type) (tr : list event) :
  detail.condition.notify_all (S (length q)) self
    {| queue_ := q; trace := tr |}
  = sequence_ (replicate (S (length q)) (detail.condition.notify_one self))
      {| queue_ := q; trace := tr |}.
Proof.
  rewrite notify_one_replicate. unfold detail.condition.notify_all.
  rewrite <- (Nat.add_0_r (length q)) at 1. rewrite notify_all_loop_run.
  rewrite drop_ge, take_ge by lia.
  by replace (S (length q) - length q)%nat with 1%nat by lia.
Qed.

(** X3: the public [notify_all] releases one waiter per call: [k] calls
    leave all but the [k] oldest tokens queued, and the queue is empty
    afterwards exactly when [k] is at least the number of waiters. *)
Theorem public_notify_all_releases_one_per_call
    (k : nat) (self : thread_self) (q : list thread_id_type)
    (tr : list event) :
  let r := sequence_ (replicate k (condition.notify_all self))
             {| queue_ := q; trace := tr |} in
  result_of r = Returned ()
  ∧ queue_ (world_of r) = drop k q
  ∧ notified (trace (world_of r)) = notified tr ++ take k q
  ∧ (queue_ (world_of r) = [] ↔ (length q ≤ k)%nat).
Proof.
  cbv zeta. change (condition.notify_all self)
    with (detail.condition.notify_one self).
  rewrite notify_one_replicate.
  cbn [result_of world_of fst snd queue_ trace]. split; [done|].
  split; [done|]. split.
  - by rewrite !notified_app, notified_drain, notified_replicate_failed,
      app_nil_r.
  - split.
    + intros Hnil. apply (f_equal length) in Hnil.
      rewrite length_drop in Hnil. cbn in Hnil. lia.
    + intros Hle. by apply drop_ge.
Qed.

(** X4: a [wait] followed by a [notify_one] keeps the length of the queue.
    On an empty queue the waiter itself is woken and the queue is empty
    again; otherwise the oldest token is woken and the waiter is queued
    last. *)
Theorem wait_then_notify_one
    (waiter caller : thread_self) (t : thread_id_type)
    (q : list thread_id_type) (tr : list event) :
  let run w := world_of ((detail.condition.wait waiter ;;
                          detail.condition.notify_one caller) w) in
  (queue_ (run {| queue_ := []; trace := tr |}) = []
   ∧ notified (trace (run {| queue_ := []; trace := tr |}))
     = notified tr ++ [get_thread_id waiter])
  ∧ (queue_ (run {| queue_ := t :: q; trace := tr |})
     = q ++ [get_thread_id waiter]
     ∧ notified (trace (run {| queue_ := t :: q; trace := tr |}))
       = notified tr ++ [t])
  ∧ (∀ w, length (queue_ (run w)) = length (queue_ w)).
Proof.
  cbv zeta.
  assert (∀ w, world_of ((detail.condition.wait waiter ;;
                          detail.condition.notify_one caller) w)
               = world_of (detail.condition.notify_one caller
                   {| queue_ := queue_ w ++ [get_thread_id waiter];
                      trace := trace w ++ [enqueue_call (get_thread_id waiter);
                                           yield_call waiter suspended] |}))
    as Hrun.
  { intros w. unfold mbind at 1, M_bind at 1. by rewrite wait_run. }
  split; [|split].
  - rewrite Hrun. cbn [queue_ trace app]. rewrite notify_one_cons.
    cbn [world_of snd queue_ trace]. split; [done|].
    rewrite !notified_app. cbn. by rewrite app_nil_r.
  - rewrite Hrun. cbn [queue_ trace app]. rewrite notify_one_cons.
    cbn [world_of snd queue_ trace]. split; [done|].
    rewrite !notified_app. cbn. by rewrite app_nil_r.
  - intros w. rewrite Hrun. destruct w as [[|u q'] tr'];
      cbn [queue_ trace app]; rewrite notify_one_cons;
      cbn [world_of snd queue_]; [done|].
    rewrite length_app. cbn. lia.
Qed.

(** X5: the notifying functions only take from the queue.  With any fuel,
    finished or not, the loop of [notify_all] enqueues nothing and yields
    nowhere, what it leaves queued is the end of what it found, and the
    tokens it handed to the scheduler are exactly the removed front, in
    order; the same holds of [notify_one]. *)
Theorem notifiers_only_dequeue
    (fuel : nat) (self : thread_self) (w : world) :
  let after_all := world_of (detail.condition.notify_all fuel self w) in
  let after_one := world_of (detail.condition.notify_one self w) in
  (enqueued (trace after_all) = enqueued (trace w)
   ∧ yields (trace after_all) = yields (trace w)
   ∧ notified (trace w) `prefix_of` notified (trace after_all)
   ∧ notified (trace after_all) ++ queue_ after_all
     = notified (trace w) ++ queue_ w
   ∧ queue_ after_all `suffix_of` queue_ w)
  ∧ (enqueued (trace after_one) = enqueued (trace w)
     ∧ yields (trace after_one) = yields (trace w)
     ∧ notified (trace after_one) ++ queue_ after_one
       = notified (trace w) ++ queue_ w
     ∧ queue_ after_one `suffix_of` queue_ w).
Proof.
  cbv zeta. split.
  - destruct (notify_all_loop_conserves fuel self 0%Z w) as (? & ? & ? & ?).
    repeat split; try done. apply notify_all_loop_suffix.
  - destruct (notify_one_conserves self w) as (? & ? & ?).
    repeat split; try done. apply notify_one_suffix.
Qed.



(** X7: when [notify_all] has returned there is nobody left to wake: the
    queue is empty, every token it found was handed to the scheduler, in
    queue order, and a [notify_one] or a [notify_all] that follows returns
    normally, wakes nobody and leaves the queue empty. *)
Theorem after_notify_all_nobody_waits
    (self next : thread_self) (fuel : nat) (q : list thread_id_type)
    (tr : list event) :
  let w1 := world_of (detail.condition.notify_all (S (length q)) self
                        {| queue_ := q; trace := tr |}) in
  queue_ w1 = []
  ∧ notified (trace w1) = notified tr ++ q
  ∧ (let r := detail.condition.notify_one next w1 in
     result_of r = Returned ()
     ∧ queue_ (world_of r) = []
     ∧ notified (trace (world_of r)) = notified (trace w1))
  ∧ (let r := detail.condition.notify_all (S fuel) next w1 in
     result_of r = Returned ()
     ∧ queue_ (world_of r) = []
     ∧ notified (trace (world_of r)) = notified (trace w1)).
Proof.
  cbv zeta.
  assert (detail.condition.notify_all (S (length q)) self
            {| queue_ := q; trace := tr |}
          = (Returned (),
             {| queue_ := [];
                trace := tr ++ drain self q ++ [dequeue_call None] |}))
    as ->.
  { unfold detail.condition.notify_all.
    rewrite <- (Nat.add_0_r (length q)) at 1. apply notify_all_loop_run. }
  cbn [world_of snd queue_ trace]. unfold detail.condition.notify_all.
  rewrite notify_one_nil, notify_all_loop_nil.
  cbn [result_of world_of fst snd queue_ trace].
  rewrite !notified_app, notified_drain. cbn. rewrite !app_nil_r.
  repeat split.
Qed.

(** X9: whatever the scheduler does, even if it lets tasks out of [yield]
    that nobody notified, in every interleaving of [wait], [notify_one] and
    [notify_all] the condition never hands a token to the scheduler more
    often than the token was enqueued, at any moment of the history; and
    every enqueue of a token is either still queued, held by a notifier
    between its [dequeue] and its [set_state], or was handed to the
    scheduler. *)
Theorem never_notified_more_than_enqueued
    (sch : system.scheduler) (s : system.sys) :
  system.reachable sch s →
  ∀ x : thread_id_type,
    system.occurrences x (enqueued (trace (system.mem s)))
    = (system.occurrences x (notified (trace (system.mem s)))
       + sum_list_with (system.holds x) (system.pool s)
       + system.occurrences x (queue_ (system.mem s)))%nat
    ∧ ∀ p : list event,
        p `prefix_of` trace (system.mem s) →
        (system.occurrences x (notified p)
         ≤ system.occurrences x (enqueued p))%nat.
Proof.
  intros Hs x. split.
  - exact (reachable_accounted _ _ x Hs).
  - intros p Hp. by eapply notified_le_enqueued.
Qed.

(** The witness: A is let out of [yield] unnotified and waits again, so its
    token is enqueued twice; the notifier then drains the queue and hands
    the token to the scheduler twice, and not more. *)
Lemma never_notified_more_than_enqueued_witness :
  let s := after_unconstrained requeue_then_drain_schedule
             requeue_then_drain_pool in
  system.reachable system.unconstrained s
  ∧ enqueued (trace (system.mem s)) = [1; 1]%Z
  ∧ notified (trace (system.mem s)) = [1; 1]%Z
  ∧ system.occurrences 1%Z (enqueued (trace (system.mem s)))
    = (system.occurrences 1%Z (notified (trace (system.mem s)))
       + sum_list_with (system.holds 1%Z) (system.pool s)
       + system.occurrences 1%Z (queue_ (system.mem s)))%nat
  ∧ (system.occurrences 1%Z (notified (trace (system.mem s)))
     ≤ system.occurrences 1%Z (enqueued (trace (system.mem s))))%nat.
Proof.
  cbv zeta.
  assert (system.reachable system.unconstrained
            (after_unconstrained requeue_then_drain_schedule
               requeue_then_drain_pool)) as Hs.
  { eapply (reachable_unconstrained_after requeue_then_drain_schedule
              requeue_then_drain_pool).
    - compute_done.
    - vm_compute. reflexivity. }
  destruct (never_notified_more_than_enqueued _ _ Hs 1%Z) as [Hacc Hle].
  split; [exact Hs|]. split; [reflexivity|]. split; [reflexivity|].
  split; [exact Hacc|]. exact (Hle _ (reflexivity _)).
Defined.

(** X10: run without interference, the statements of a call do what the
    sequential member function does.  From a task that is outside a call:
    [wait] is the entry and two statements, after which the task is inside
    [yield]; [notify_one] is the entry and at most two statements;
    [notify_all] is the entry and exactly [2 * n + 1] statements for a
    queue of [n] tokens; the two notifiers end outside the call.  In each
    case the queue and the calls made are those of the function of the
    same name. *)
Theorem calls_alone_agree_with_sequential_functions
    (sch : system.scheduler) (s : system.sys) (i : nat) (me : thread_self) :
  system.pool s !! i
  = Some {| system.self := me; system.at_pc := system.outside |} →
  (∃ s', system.run sch [system.start i system.call_wait;
                         system.advance i; system.advance i] s = Some s'
         ∧ system.mem s' = world_of (detail.condition.wait me (system.mem s))
         ∧ system.pool s' !! i
           = Some {| system.self := me;
                     system.at_pc := system.wait_suspended |})
  ∧ (∃ n s', (n ≤ 2)%nat
       ∧ system.run sch (system.start i system.call_notify_one
                         :: replicate n (system.advance i)) s = Some s'
       ∧ system.mem s'
         = world_of (detail.condition.notify_one me (system.mem s))
       ∧ system.pool s' !! i
         = Some {| system.self := me; system.at_pc := system.outside |})
  ∧ (∃ s', system.run sch
             (system.start i system.call_notify_all
              :: replicate (2 * length (queue_ (system.mem s)) + 1)
                   (system.advance i)) s = Some s'
       ∧ system.mem s'
         = world_of (detail.condition.notify_all
                       (S (length (queue_ (system.mem s)))) me (system.mem s))
       ∧ system.pool s' !! i
         = Some {| system.self := me; system.at_pc := system.outside |}).
Proof.
  intros HT. split; [by apply solo_wait|]. split; [|by apply solo_notify_all].
  destruct (solo_notify_one_bounded sch s i me HT) as (n & s' & ? & ? & ? & ?).
  by exists n, s'.
Qed.

Lemma calls_alone_agree_with_sequential_functions_witness :
  system.pool two_waiting !! 0%nat
  = Some {| system.self := notifier; system.at_pc := system.outside |}
  ∧ queue_ (system.mem two_waiting) = [1; 2]%Z
  ∧ (∃ s', system.run system.cooperative
             [system.start 0 system.call_wait;
              system.advance 0; system.advance 0] two_waiting = Some s'
           ∧ queue_ (system.mem s') = [1; 2; 9]%Z
           ∧ system.mem s'
             = world_of (detail.condition.wait notifier
                           (system.mem two_waiting)))
  ∧ (∃ n s', (n ≤ 2)%nat
       ∧ system.run system.cooperative
           (system.start 0 system.call_notify_one
            :: replicate n (system.advance 0)) two_waiting = Some s'
       ∧ queue_ (system.mem s') = [2]%Z
       ∧ system.mem s'
         = world_of (detail.condition.notify_one notifier
                       (system.mem two_waiting)))
  ∧ (∃ s', system.run system.cooperative
             (system.start 0 system.call_notify_all
              :: replicate 5 (system.advance 0)) two_waiting = Some s'
           ∧ queue_ (system.mem s') = []
           ∧ notified (trace (system.mem s')) = [1; 2]%Z
           ∧ system.mem s'
             = world_of (detail.condition.notify_all 3 notifier
                           (system.mem two_waiting))).
Proof.
  assert (system.pool two_waiting !! 0%nat
          = Some {| system.self := notifier;
                    system.at_pc := system.outside |}) as HT by reflexivity.
  destruct (calls_alone_agree_with_sequential_functions system.cooperative
              two_waiting 0 notifier HT)
    as ((s1 & Hr1 & Hm1 & _) & (n & s2 & Hn & Hr2 & Hm2 & _)
        & (s3 & Hr3 & Hm3 & _)).
  split; [exact HT|]. split; [reflexivity|]. split; [|split].
  - exists s1. split; [exact Hr1|]. split; [by rewrite Hm1|exact Hm1].
  - exists n, s2. split; [exact Hn|]. split; [exact Hr2|].
    split; [by rewrite Hm2|exact Hm2].
  - exists s3. split; [exact Hr3|]. split; [by rewrite Hm3|].
    split; [by rewrite Hm3|exact Hm3].
Defined.

(** X11: the inner [notify_all] releases every waiter: after the waits of
    any tasks on a fresh condition, in any number, one call returns
    normally, hands the tokens of all of them to the scheduler in the
    order of their waits, and leaves the queue empty. *)
Theorem inner_notify_all_releases_all_waiters
    (self : thread_self) (selves : list thread_self) :
  let w := world_of (sequence_ (detail.condition.wait <$> selves)
                       detail.condition.new) in
  let r := detail.condition.notify_all (S (length selves)) self w in
  queue_ w = get_thread_id <$> selves
  ∧ result_of r = Returned ()
  ∧ queue_ (world_of r) = []
  ∧ notified (trace (world_of r)) = get_thread_id <$> selves.
Proof.
  cbv zeta. rewrite waits_run.
  cbn [world_of snd queue_ trace detail.condition.new fifo.empty app].
  split; [done|]. unfold detail.condition.notify_all.
  rewrite <- (length_fmap get_thread_id selves).
  rewrite <- (Nat.add_0_r (length (get_thread_id <$> selves))).
  rewrite notify_all_loop_run.
  cbn [result_of world_of fst snd queue_ trace].
  rewrite !notified_app, notified_waits, notified_drain. cbn.
  by rewrite app_nil_r.
Qed.

(** X12: [wait] does not look for the caller's token in the queue.  On a
    queue without repeated tokens, the queue after [wait] is without
    repetition exactly when the caller's token was not queued already;
    [notify_one] and [notify_all] (with any fuel) never introduce a
    repetition. *)
Theorem uniqueness_kept_unless_waiter_is_queued
    (self : thread_self) (fuel : nat) (w : world) :
  NoDup (queue_ w) →
  (NoDup (queue_ (world_of (detail.condition.wait self w)))
   ↔ get_thread_id self ∉ queue_ w)
  ∧ NoDup (queue_ (world_of (detail.condition.notify_one self w)))
  ∧ NoDup (queue_ (world_of (detail.condition.notify_all fuel self w))).
Proof.
  intros Hnd. split; [|split].
  - rewrite wait_run. cbn [world_of snd queue_]. rewrite list.NoDup_app. split.
    + intros (_ & Hdisj & _) Hin. apply (Hdisj _ Hin). by apply list_elem_of_singleton.
    + intros Hnin. split; [done|]. split; [|apply NoDup_singleton].
      intros x Hx ->%list_elem_of_singleton. done.
  - eapply NoDup_suffix; [apply notify_one_suffix|done].
  - eapply NoDup_suffix; [apply notify_all_loop_suffix|done].
Qed.

Lemma uniqueness_kept_unless_waiter_is_queued_witness :
  NoDup (queue_ three_waiters)
  ∧ ¬ NoDup (queue_ (world_of (detail.condition.wait task_A three_waiters)))
  ∧ NoDup (queue_ (world_of (detail.condition.wait notifier three_waiters))).
Proof.
  assert (NoDup (queue_ three_waiters)) as Hnd by compute_done.
  split; [exact Hnd|]. split.
  - intros H.
    apply (proj1 (proj1 (uniqueness_kept_unless_waiter_is_queued
                           task_A 0 three_waiters Hnd)) H).
    compute_done.
  - apply (proj2 (proj1 (uniqueness_kept_unless_waiter_is_queued
                           notifier 0 three_waiters Hnd))).
    compute_done.
Defined.
